(** * Object detection notebook (03-detection): IoU, NMS, the IoU checker
    and the box-drawing filter.

    Coordinates and probabilities are exact rationals [Q]; the spec
    computes areas and IoU "as real numbers".  The checker
    [check_batch_iou] compares tensors entrywise in floating point and is
    modelled over an abstract floating-point interface, instantiated with
    Rocq's primitive binary64 floats. *)

From Stdlib Require Import Arith QArith Qminmax Qabs List Lia Sorted Permutation.
From Stdlib Require Import Lqa PrimFloat.
From Equations Require Import Equations.
Import ListNotations.

Open Scope Q_scope.

(* ------------------------------------------------------------------ *)
(** ** Data model *)

(** A box in the [(left, top, right, bottom)] format. *)
Record Rectangle := Rect { left : Q; top : Q; right : Q; bottom : Q }.

Definition zero_rect : Rectangle := Rect 0 0 0 0.

(** A probability vector of length [C + 1]; the last entry is "no object". *)
Definition ProbVector := list Q.

(* ------------------------------------------------------------------ *)
(** ** Box-Overlap Evaluator ([batch_iou]) *)

(** Modelled from the spec: the body of [batch_iou] is an unfilled
    assignment stub in the notebook (section 4.1 of the spec gives the
    algorithm).  Area of a rectangle. *)
Definition area (r : Rectangle) : Q :=
  (right r - left r) * (bottom r - top r).

(** Modelled from the spec: intersection rectangle with each dimension
    clipped at 0 before multiplying. *)
Definition intersection_area (a b : Rectangle) : Q :=
  let l := Qmax (left a) (left b) in
  let t := Qmax (top a) (top b) in
  let r := Qmin (right a) (right b) in
  let bt := Qmin (bottom a) (bottom b) in
  Qmax 0 (r - l) * Qmax 0 (bt - t).

(** Modelled from the spec: union = area(reference) + area(candidate) -
    intersection. *)
Definition union_area (a b : Rectangle) : Q :=
  area a + area b - intersection_area a b.

(** Modelled from the spec: IoU = intersection / union when the union is
    positive, and 0 otherwise (no division by a zero union). *)
Definition iou (reference box : Rectangle) : Q :=
  let i := intersection_area reference box in
  let u := union_area reference box in
  if Qle_bool u 0 then 0 else i / u.

(** Modelled from the spec: one IoU per candidate, in candidate order. *)
Definition batch_iou (reference : Rectangle) (boxes : list Rectangle) : list Q :=
  map (iou reference) boxes.

(* ------------------------------------------------------------------ *)
(** ** Greedy Suppressor ([non_maximum_suppression]) *)

Inductive NmsError := InvalidInput.

(** Objectness = 1 - probability of the last ("no object") class. *)
Definition objectness (p : ProbVector) : Q := 1 - last p 0.

Definition Qlt_bool (x y : Q) : bool := negb (Qle_bool y x).

(** Modelled from the spec: the input checks of section 7 of the spec. *)
Definition valid_input (boxes : list Rectangle) (probs : list ProbVector)
    (iou_threshold : Q) : bool :=
  Nat.eqb (length boxes) (length probs)
  && Qlt_bool 0 iou_threshold && Qle_bool iou_threshold 1
  && forallb (fun p => Nat.leb 1 (length p)) probs.

(** Modelled from the spec: stable sort of indices by descending key.
    [insert_desc] places [x] after every element whose key is strictly
    larger; sorting the list from its end keeps equal keys in input order. *)
Fixpoint insert_desc (key : nat -> Q) (x : nat) (l : list nat) : list nat :=
  match l with
  | [] => [x]
  | y :: ys => if Qlt_bool (key x) (key y) then y :: insert_desc key x ys
               else x :: y :: ys
  end.

Fixpoint sort_desc (key : nat -> Q) (l : list nat) : list nat :=
  match l with
  | [] => []
  | x :: xs => insert_desc key x (sort_desc key xs)
  end.

Definition box_at (boxes : list Rectangle) (i : nat) : Rectangle :=
  nth i boxes zero_rect.

Definition prob_at (probs : list ProbVector) (i : nat) : ProbVector :=
  nth i probs [].

(** Modelled from the spec: one greedy step.  The IoU of the popped box
    with every remaining box is computed by [batch_iou]; a remaining index
    is removed when its IoU exceeds the threshold (strict [>]). *)
Definition suppress (boxes : list Rectangle) (iou_threshold : Q)
    (p : nat) (rest : list nat) : list nat :=
  map fst (filter (fun rv => Qle_bool (snd rv) iou_threshold)
                  (combine rest (batch_iou (box_at boxes p) (map (box_at boxes) rest)))).

(** Modelled from the spec: pop the first remaining index, keep it, drop
    the overlapping ones, repeat until nothing remains. *)
Equations? greedy (boxes : list Rectangle) (iou_threshold : Q) (rem : list nat)
  : list nat by wf (length rem) lt :=
  greedy boxes iou_threshold [] := [];
  greedy boxes iou_threshold (p :: rest) :=
    p :: greedy boxes iou_threshold (suppress boxes iou_threshold p rest).
Proof.
  unfold suppress, batch_iou. rewrite length_map.
  pose proof (filter_length_le (fun rv => Qle_bool (snd rv) iou_threshold)
    (combine rest (map (iou (box_at boxes p)) (map (box_at boxes) rest)))).
  rewrite length_combine, !length_map in *. lia.
Qed.

(** Modelled from the spec: validate, sort by descending objectness
    (stable), run the greedy pass, and project boxes and probabilities at
    the kept indices. *)
Definition non_maximum_suppression (boxes : list Rectangle)
    (probs : list ProbVector) (iou_threshold : Q)
  : NmsError + (list Rectangle * list ProbVector) :=
  if valid_input boxes probs iou_threshold then
    let order := sort_desc (fun i => objectness (prob_at probs i))
                           (seq 0 (length boxes)) in
    let kept := greedy boxes iou_threshold order in
    inr (map (box_at boxes) kept, map (prob_at probs) kept)
  else inl InvalidInput.

(* ------------------------------------------------------------------ *)
(** ** Fixture of [check_batch_iou] *)

Definition fixture_reference : Rectangle := Rect 0 0 4 6.
Definition fixture_boxes : list Rectangle :=
  [Rect 0 0 4 4; Rect (-2) (-2) 2 2; Rect (-4) (-4) 0 0; Rect (-6) (-6) (-2) (-2)].
Definition fixture_iou_gt : list Q := [2 # 3; 1 # 9; 0; 0].

(** A small detection set: two overlapping boxes and an isolated one. *)
Definition demo_boxes : list Rectangle :=
  [Rect 0 0 10 10; Rect 1 1 10 10; Rect 20 20 30 30].
Definition demo_probs : list ProbVector :=
  [[9 # 10; 1 # 10]; [1 # 10; 9 # 10]; [5 # 10; 5 # 10]].
Definition demo_kept_boxes : list Rectangle := [Rect 0 0 10 10; Rect 20 20 30 30].
Definition demo_kept_probs : list ProbVector := [[9 # 10; 1 # 10]; [5 # 10; 5 # 10]].


(* ------------------------------------------------------------------ *)
(** ** Auxiliary notions used by the statements *)

(** A rectangle meeting the caller's invariant [left <= right], [top <= bottom]. *)
Definition well_formed (r : Rectangle) : Prop :=
  left r <= right r /\ top r <= bottom r.

(** The greedy step keeps [r] after popping [p]: IoU at most the threshold. *)
Definition keeps (boxes : list Rectangle) (thr : Q) (p r : nat) : bool :=
  Qle_bool (iou (box_at boxes p) (box_at boxes r)) thr.

(** [i] is ranked before [j]: larger key, or equal key and earlier index. *)
Definition ranks_before (key : nat -> Q) (i j : nat) : Prop :=
  key j < key i \/ (key i == key j /\ (i < j)%nat).

(** Objectness of the detection at index [i]. *)
Definition obj_key (probs : list ProbVector) (i : nat) : Q :=
  objectness (prob_at probs i).


(* ------------------------------------------------------------------ *)
(** ** [check_batch_iou] *)

(** The checker compares entries in floating point.  The comparison
    primitives are section variables; the notebook runs them on torch
    tensors (float32 by default), and [check_batch_iou_f64] below
    instantiates them with binary64 floats, whose NaN and comparison
    behaviour is the same. *)
Section CheckBatchIou.

Variable F : Type.
Variable fsub : F -> F -> F.          (* [result[i] - iou_gt[i]] *)
Variable fabs : F -> F.               (* [abs(...)] *)
Variable fgt : F -> F -> bool.        (* [... > 1e-6] *)
Variable tol : F.                     (* [1e-6] *)
Variables g0 g1 g2 g3 : F.            (* [torch.tensor([2 / 3, 1 / 9, 0, 0])] *)

Definition iou_gt : list F := [g0; g1; g2; g3].

(** The value [torch.as_tensor(fn(reference, boxes))]: a shape and the
    entries in row-major order. *)
Record Tensor := MkTensor { shape : list nat; data : list F }.

(** What the checker prints. *)
Inductive Diagnostic :=
| WrongOutputSize
| WrongIoU (i : nat) (answer truth : F)
| OkMsg.

(** It returns a boolean after printing, or raises (an index out of range). *)
Inductive CheckOutcome :=
| Returned (printed : list Diagnostic) (value : bool)
| Raised.

(** [for i, box in enumerate(boxes): if abs(result[i] - iou_gt[i]) > 1e-6: ...] *)
Fixpoint check_entries (is : list nat) (res : list F) : CheckOutcome :=
  match is with
  | [] => Returned [OkMsg] true
  | i :: is' =>
      match nth_error res i, nth_error iou_gt i with
      | Some r, Some g =>
          if fgt (fabs (fsub r g)) tol then Returned [WrongIoU i r g] false
          else check_entries is' res
      | _, _ => Raised
      end
  end.

Definition check_batch_iou (result : Tensor) : CheckOutcome :=
  match shape result with
  | [4%nat] => check_entries (seq 0 4) (data result)
  | _ => Returned [WrongOutputSize] false
  end.

End CheckBatchIou.

Arguments MkTensor {F}.
Arguments shape {F}.
Arguments data {F}.
Arguments WrongOutputSize {F}.
Arguments WrongIoU {F}.
Arguments OkMsg {F}.
Arguments Returned {F}.
Arguments Raised {F}.

Local Set Warnings "-inexact-float".

(** Python's [1e-6], rounded to the nearest binary64 value. *)
Definition f64_tol : float := 1e-6%float.

Definition check_batch_iou_f64 : Tensor float -> CheckOutcome float :=
  check_batch_iou float PrimFloat.sub PrimFloat.abs (fun x y => PrimFloat.ltb y x)
    f64_tol (2 / 3)%float (1 / 9)%float 0%float 0%float.

(* ------------------------------------------------------------------ *)
(** ** [draw_boxes] *)

Definition CONFIDENCE_THRESHOLD : Q := 1 # 2.

(** [p.max(dim=-1)] scans the entries and keeps the first maximal one. *)
Fixpoint max_from (i : nat) (best : Q) (bi : nat) (l : list Q) : Q * nat :=
  match l with
  | [] => (best, bi)
  | x :: xs => if Qlt_bool best x then max_from (S i) x i xs
               else max_from (S i) best bi xs
  end.

(** [score, label = p.max(dim=-1)]; the max of an empty tensor raises. *)
Definition tensor_max (p : ProbVector) : option (Q * nat) :=
  match p with
  | [] => None
  | x :: xs => Some (max_from 1 x 0 xs)
  end.

(** A patch added to the plot: the class name and the rectangle
    [(l, u), w, h] in pixels. *)
Record Patch (Label : Type) := MkPatch {
  patch_label : Label; patch_score : Q;
  patch_l : Q; patch_u : Q; patch_w : Q; patch_h : Q }.
Arguments MkPatch {Label}.
Arguments patch_l {Label}.
Arguments patch_u {Label}.
Arguments patch_w {Label}.
Arguments patch_h {Label}.

Definition patch_of {Label} (name : Label) (score : Q)
    (image_width image_height : Q) (box : Rectangle) : Patch Label :=
  let l := left box * image_width in
  let r := right box * image_width in
  let u := top box * image_height in
  let b := bottom box * image_height in
  MkPatch name score l u (r - l) (b - u).

(** The loop of [draw_boxes] over [zip(probs, boxes)].  [id2label] is
    [model.config.id2label]; a missing key raises [KeyError].  The result
    is the patches drawn, and whether the loop raised. *)
Fixpoint draw_loop {Label} (id2label : nat -> option Label)
    (image_width image_height : Q) (ps : list ProbVector) (bs : list Rectangle)
  : list (Patch Label) * bool :=
  match ps, bs with
  | p :: ps', box :: bs' =>
      match tensor_max p with
      | None => ([], true)
      | Some (score, label) =>
          if Qlt_bool score CONFIDENCE_THRESHOLD then
            draw_loop id2label image_width image_height ps' bs'
          else if Nat.eqb label 91 then
            draw_loop id2label image_width image_height ps' bs'
          else
            match id2label label with
            | None => ([], true)
            | Some name =>
                let (rest, raised) :=
                  draw_loop id2label image_width image_height ps' bs' in
                (patch_of name score image_width image_height box :: rest, raised)
            end
      end
  | _, _ => ([], false)
  end.

Definition draw_boxes {Label} (id2label : nat -> option Label)
    (image_width image_height : Q) (boxes : list Rectangle) (probs : list ProbVector)
  : list (Patch Label) * bool :=
  draw_loop id2label image_width image_height probs boxes.

(** The decision [draw_boxes] takes for one probability vector. *)
Definition renders (p : ProbVector) : bool :=
  match tensor_max p with
  | Some (score, label) =>
      negb (Qlt_bool score CONFIDENCE_THRESHOLD) && negb (Nat.eqb label 91)
  | None => false
  end.

(** The drawn rectangle of a patch, and the one [draw_boxes] computes for a box. *)
Definition patch_rect {Label} (pt : Patch Label) : Q * Q * Q * Q :=
  (patch_l pt, patch_u pt, patch_w pt, patch_h pt).

Definition box_rect (image_width image_height : Q) (box : Rectangle) : Q * Q * Q * Q :=
  patch_rect (patch_of tt 0 image_width image_height box).

(** The key set of the YOLOS-tiny [id2label]: ids 0..90 (the names do not
    matter to the drawing, so each id stands for its own name). *)
Definition yolos_id2label (n : nat) : option nat :=
  if Nat.ltb n 91 then Some n else None.

(* ------------------------------------------------------------------ *)
(** ** Display normalisation of the preprocessed image *)

(** [value.min()] and [value.max()] of a tensor (flattened); both raise on
    an empty tensor. *)
Definition tensor_min (v : list Q) : option Q :=
  match v with [] => None | x :: xs => Some (fold_left Qmin xs x) end.

Definition tensor_maxval (v : list Q) : option Q :=
  match v with [] => None | x :: xs => Some (fold_left Qmax xs x) end.

(** [value = value - value.min(); value = value / value.max()]. *)
Definition normalize_for_display (v : list Q) : option (list Q) :=
  match tensor_min v with
  | None => None
  | Some mn =>
      let v1 := map (fun y => y - mn) v in
      match tensor_maxval v1 with
      | None => None
      | Some mx => Some (map (fun z => z / mx) v1)
      end
  end.

(* ------------------------------------------------------------------ *)
(** ** Sanity checks on small inputs *)

Example ex_fixture :
  map Qred (batch_iou fixture_reference fixture_boxes) = fixture_iou_gt.
Proof. vm_compute. reflexivity. Qed.

Example ex_nms_cluster :
  non_maximum_suppression demo_boxes demo_probs (1 # 2)
  = inr (demo_kept_boxes, demo_kept_probs).
Proof. vm_compute. reflexivity. Qed.

(* ------------------------------------------------------------------ *)
(** ** Facts about the Box-Overlap Evaluator *)

Lemma Qmax0_cases (x : Q) :
  (x <= 0 /\ Qmax 0 x == 0) \/ (0 < x /\ Qmax 0 x == x).
Proof.
  destruct (Q.max_spec 0 x) as [[H1 H2]|[H1 H2]]; [right|left]; auto.
Qed.

Lemma Qmax_ge_l (x y : Q) : x <= Qmax x y.
Proof. apply Q.le_max_l. Qed.

Lemma Qmax_ge_r (x y : Q) : y <= Qmax x y.
Proof. apply Q.le_max_r. Qed.

Lemma Qmin_le_l (x y : Q) : Qmin x y <= x.
Proof. apply Q.le_min_l. Qed.

Lemma Qmin_le_r (x y : Q) : Qmin x y <= y.
Proof. apply Q.le_min_r. Qed.

Lemma intersection_area_nonneg (a b : Rectangle) :
  0 <= intersection_area a b.
Proof.
  unfold intersection_area.
  apply Qmult_le_0_compat; apply Q.le_max_l.
Qed.

Lemma intersection_area_comm (a b : Rectangle) :
  intersection_area a b == intersection_area b a.
Proof.
  unfold intersection_area.
  rewrite (Q.max_comm (left a)), (Q.max_comm (top a)),
          (Q.min_comm (right a)), (Q.min_comm (bottom a)).
  reflexivity.
Qed.

Lemma union_area_comm (a b : Rectangle) :
  union_area a b == union_area b a.
Proof.
  unfold union_area. rewrite intersection_area_comm. ring.
Qed.

(** The intersection is at most each area (when it is not empty). *)
Lemma intersection_le_area_l (a b : Rectangle) :
  0 < intersection_area a b -> intersection_area a b <= area a.
Proof.
  unfold intersection_area, area. intros Hpos.
  pose proof (Qmax_ge_l (left a) (left b)).
  pose proof (Qmax_ge_l (top a) (top b)).
  pose proof (Qmin_le_l (right a) (right b)).
  pose proof (Qmin_le_l (bottom a) (bottom b)).
  destruct (Qmax0_cases (Qmin (right a) (right b) - Qmax (left a) (left b)))
    as [[Hw Ew]|[Hw Ew]];
  destruct (Qmax0_cases (Qmin (bottom a) (bottom b) - Qmax (top a) (top b)))
    as [[Hh Eh]|[Hh Eh]]; rewrite Ew, Eh in *; try (rewrite Qmult_0_l in Hpos);
    try (rewrite Qmult_0_r in Hpos); try (exfalso; lra).
  nra.
Qed.

Lemma intersection_le_area_r (a b : Rectangle) :
  0 < intersection_area a b -> intersection_area a b <= area b.
Proof.
  rewrite !(intersection_area_comm a b). apply intersection_le_area_l.
Qed.

Lemma intersection_le_union (a b : Rectangle) :
  intersection_area a b <= union_area a b \/ intersection_area a b == 0.
Proof.
  destruct (Qle_lt_or_eq _ _ (intersection_area_nonneg a b)) as [H|H].
  - left. pose proof (intersection_le_area_l a b H).
    pose proof (intersection_le_area_r a b H).
    unfold union_area. lra.
  - right. symmetry. exact H.
Qed.

Lemma Qle_bool_false (x y : Q) : Qle_bool x y = false -> y < x.
Proof.
  intros H. apply Qnot_le_lt. intros Hle.
  apply Qle_bool_iff in Hle. congruence.
Qed.

Lemma iou_bounds (a b : Rectangle) : 0 <= iou a b /\ iou a b <= 1.
Proof.
  unfold iou. destruct (Qle_bool (union_area a b) 0) eqn:Hu.
  - split; lra.
  - apply Qle_bool_false in Hu.
    pose proof (intersection_area_nonneg a b).
    split.
    + apply Qle_shift_div_l; [exact Hu|]. lra.
    + apply Qle_shift_div_r; [exact Hu|].
      destruct (intersection_le_union a b); lra.
Qed.

Lemma iou_comm (a b : Rectangle) : iou a b == iou b a.
Proof.
  unfold iou.
  rewrite (Qleb_comp _ _ (union_area_comm a b) 0 0 (Qeq_refl 0)).
  destruct (Qle_bool (union_area b a) 0); [reflexivity|].
  rewrite (intersection_area_comm a b), (union_area_comm a b). reflexivity.
Qed.

Lemma iou_positive_union (a b : Rectangle) :
  0 < union_area a b -> iou a b = intersection_area a b / union_area a b.
Proof.
  intros H. unfold iou.
  destruct (Qle_bool (union_area a b) 0) eqn:Hu; [|reflexivity].
  apply Qle_bool_iff in Hu. lra.
Qed.

Lemma iou_zero_union (a b : Rectangle) :
  union_area a b == 0 -> iou a b = 0.
Proof.
  intros H. unfold iou.
  destruct (Qle_bool (union_area a b) 0) eqn:Hu; [reflexivity|].
  apply Qle_bool_false in Hu. lra.
Qed.

Lemma area_nonneg (r : Rectangle) : well_formed r -> 0 <= area r.
Proof.
  intros [H1 H2]. unfold area. apply Qmult_le_0_compat; lra.
Qed.

Lemma union_zero_iff_degenerate (a b : Rectangle) :
  well_formed a -> well_formed b ->
  (union_area a b == 0 <-> area a == 0 /\ area b == 0).
Proof.
  intros Ha Hb. pose proof (area_nonneg a Ha). pose proof (area_nonneg b Hb).
  pose proof (intersection_area_nonneg a b).
  destruct (Qle_lt_or_eq _ _ (intersection_area_nonneg a b)) as [Hi|Hi].
  - pose proof (intersection_le_area_l a b Hi).
    pose proof (intersection_le_area_r a b Hi).
    unfold union_area. split; [intros; lra|intros [E1 E2]; lra].
  - unfold union_area. rewrite <- Hi. split; [intros; lra|intros [E1 E2]; lra].
Qed.

(* ------------------------------------------------------------------ *)
(** ** Facts about the greedy pass *)

Section GreedyFacts.

Variable boxes : list Rectangle.
Variable thr : Q.

Lemma suppress_filter (p : nat) (rest : list nat) :
  suppress boxes thr p rest = filter (keeps boxes thr p) rest.
Proof.
  unfold suppress, batch_iou, keeps.
  induction rest as [|r rest IH]; simpl; [reflexivity|].
  destruct (Qle_bool (iou (box_at boxes p) (box_at boxes r)) thr);
    simpl; rewrite IH; reflexivity.
Qed.

Lemma in_suppress (p r : nat) (rest : list nat) :
  In r (suppress boxes thr p rest) <->
  In r rest /\ iou (box_at boxes p) (box_at boxes r) <= thr.
Proof.
  rewrite suppress_filter, filter_In. unfold keeps.
  rewrite Qle_bool_iff. tauto.
Qed.

Lemma greedy_incl (rem : list nat) : incl (greedy boxes thr rem) rem.
Proof.
  funelim (greedy boxes thr rem); simp greedy.
  - intros x Hx; exact Hx.
  - intros x [<-|Hx]; [left; reflexivity|right].
    match goal with IH : incl (greedy _ _ _) _ |- _ => apply IH in Hx end.
    apply in_suppress in Hx. tauto.
Qed.

Lemma greedy_nil_cons (p : nat) (rest : list nat) :
  greedy boxes thr (p :: rest) = p :: greedy boxes thr (suppress boxes thr p rest).
Proof. simp greedy. reflexivity. Qed.

(** Every kept index has IoU at most the threshold with every index kept
    after it. *)
Lemma greedy_pairwise (rem : list nat) :
  ForallOrdPairs (fun i j => iou (box_at boxes i) (box_at boxes j) <= thr)
                 (greedy boxes thr rem).
Proof.
  funelim (greedy boxes thr rem); simp greedy.
  - constructor.
  - constructor; [|assumption].
    apply Forall_forall. intros x Hx.
    apply greedy_incl, in_suppress in Hx. tauto.
Qed.

(** Induction following the greedy pass. *)
Lemma greedy_scheme (P : list nat -> list nat -> Prop) :
  P [] [] ->
  (forall p rest,
      P (suppress boxes thr p rest) (greedy boxes thr (suppress boxes thr p rest)) ->
      P (p :: rest) (p :: greedy boxes thr (suppress boxes thr p rest))) ->
  forall rem, P rem (greedy boxes thr rem).
Proof.
  intros Hnil Hcons rem.
  funelim (greedy boxes thr rem); simp greedy; try exact Hnil.
  apply Hcons.
  match goal with IH : forall P : list nat -> list nat -> Prop, _ |- _ => apply IH end;
    assumption.
Qed.

Lemma StronglySorted_filter {A} (R : A -> A -> Prop) (f : A -> bool) (l : list A) :
  StronglySorted R l -> StronglySorted R (filter f l).
Proof.
  induction 1 as [|a l Hs IH Hf]; simpl; [constructor|].
  destruct (f a); [|exact IH].
  constructor; [exact IH|].
  apply Forall_forall. intros x Hx. apply filter_In in Hx.
  rewrite Forall_forall in Hf. apply Hf. tauto.
Qed.

Lemma greedy_sorted (R : nat -> nat -> Prop) (rem : list nat) :
  StronglySorted R rem -> StronglySorted R (greedy boxes thr rem).
Proof.
  apply (greedy_scheme (fun rem out => StronglySorted R rem -> StronglySorted R out));
    [tauto|].
  intros p rest IH Hs.
  inversion Hs as [|? ? Hs' Hf]; subst.
  constructor.
  - apply IH. rewrite suppress_filter. apply StronglySorted_filter. exact Hs'.
  - apply Forall_forall. intros x Hx.
    apply greedy_incl, in_suppress in Hx.
    rewrite Forall_forall in Hf. apply Hf. tauto.
Qed.

Lemma greedy_NoDup (rem : list nat) :
  NoDup rem -> NoDup (greedy boxes thr rem).
Proof.
  apply (greedy_scheme (fun rem out => NoDup rem -> NoDup out)); [tauto|].
  intros p rest IH Hn.
  inversion Hn as [|? ? Hnot Hn']; subst.
  constructor.
  - intros Hin. apply greedy_incl, in_suppress in Hin. tauto.
  - apply IH. rewrite suppress_filter. apply NoDup_filter. exact Hn'.
Qed.

(** When no pair of [rem] overlaps above the threshold, nothing is removed. *)
Lemma greedy_no_overlap (rem : list nat) :
  ForallOrdPairs (fun i j => iou (box_at boxes i) (box_at boxes j) <= thr) rem ->
  greedy boxes thr rem = rem.
Proof.
  apply (greedy_scheme (fun rem out => ForallOrdPairs
           (fun i j => iou (box_at boxes i) (box_at boxes j) <= thr) rem -> out = rem));
    [reflexivity|].
  intros p rest IH Hp.
  inversion Hp as [|? ? Hf Hp']; subst.
  assert (Hs : suppress boxes thr p rest = rest).
  { rewrite suppress_filter. apply forallb_filter_id, forallb_forall.
    intros x Hx. rewrite Forall_forall in Hf. unfold keeps.
    apply Qle_bool_iff, Hf, Hx. }
  f_equal. rewrite Hs in *. apply IH. exact Hp'.
Qed.

End GreedyFacts.

(* ------------------------------------------------------------------ *)
(** ** Facts about the stable descending sort *)

Lemma ranks_before_trans (key : nat -> Q) (i j k : nat) :
  ranks_before key i j -> ranks_before key j k -> ranks_before key i k.
Proof.
  unfold ranks_before. intros [H1|[H1 H1']] [H2|[H2 H2']].
  - left. lra.
  - left. rewrite <- H2. exact H1.
  - left. rewrite H1. exact H2.
  - right. split; [rewrite H1; exact H2|lia].
Qed.

Lemma insert_desc_perm (key : nat -> Q) (x : nat) (l : list nat) :
  Permutation (insert_desc key x l) (x :: l).
Proof.
  induction l as [|y ys IH]; simpl; [reflexivity|].
  destruct (Qlt_bool (key x) (key y)); [|reflexivity].
  rewrite IH. apply perm_swap.
Qed.

Lemma sort_desc_perm (key : nat -> Q) (l : list nat) :
  Permutation (sort_desc key l) l.
Proof.
  induction l as [|x xs IH]; simpl; [reflexivity|].
  rewrite insert_desc_perm, IH. reflexivity.
Qed.

Lemma insert_desc_sorted (key : nat -> Q) (x : nat) (l : list nat) :
  StronglySorted (ranks_before key) l ->
  Forall (fun y => (x < y)%nat) l ->
  StronglySorted (ranks_before key) (insert_desc key x l).
Proof.
  induction l as [|y ys IH]; simpl; intros Hs Hx.
  - repeat constructor.
  - inversion Hs as [|? ? Hs' Hf]; subst. inversion Hx as [|? ? Hxy Hx']; subst.
    destruct (Qlt_bool (key x) (key y)) eqn:Hc.
    + constructor; [apply IH; assumption|].
      apply Forall_forall. intros z Hz.
      apply (Permutation_in _ (insert_desc_perm key x ys)) in Hz.
      destruct Hz as [<-|Hz].
      * left. unfold Qlt_bool in Hc. apply negb_true_iff, Qle_bool_false in Hc.
        exact Hc.
      * rewrite Forall_forall in Hf. apply Hf, Hz.
    + assert (Hxy' : ranks_before key x y).
      { unfold Qlt_bool in Hc. apply negb_false_iff, Qle_bool_iff in Hc.
        apply Qle_lt_or_eq in Hc as [Hc|Hc]; [left; exact Hc|right; split; [|exact Hxy]].
        symmetry. exact Hc. }
      constructor; [exact Hs|].
      constructor; [exact Hxy'|].
      apply Forall_forall. intros z Hz.
      apply (ranks_before_trans key x y z Hxy').
      rewrite Forall_forall in Hf. apply Hf, Hz.
Qed.

Lemma sort_desc_seq_sorted (key : nat -> Q) (n s : nat) :
  StronglySorted (ranks_before key) (sort_desc key (seq s n)).
Proof.
  revert s. induction n as [|n IH]; intros s; simpl; [constructor|].
  apply insert_desc_sorted; [apply IH|].
  apply Forall_forall. intros z Hz.
  apply (Permutation_in _ (sort_desc_perm key (seq (S s) n))) in Hz.
  apply in_seq in Hz. lia.
Qed.

(** A list already ordered by non-increasing key is left as it is. *)
Lemma sort_desc_id (key : nat -> Q) (l : list nat) :
  StronglySorted (fun i j => key j <= key i) l -> sort_desc key l = l.
Proof.
  induction 1 as [|x xs Hs IH Hf]; simpl; [reflexivity|].
  rewrite IH. destruct xs as [|y ys]; simpl; [reflexivity|].
  inversion Hf as [|? ? Hxy _]; subst.
  unfold Qlt_bool. apply Qle_bool_iff in Hxy. rewrite Hxy. reflexivity.
Qed.

(* ------------------------------------------------------------------ *)
(** ** Ordered pairs and positions *)

Lemma StronglySorted_ForallOrdPairs {A} (R : A -> A -> Prop) (l : list A) :
  StronglySorted R l <-> ForallOrdPairs R l.
Proof.
  split; induction 1; constructor; assumption.
Qed.

Lemma ForallOrdPairs_nth_iff {A} (R : A -> A -> Prop) (d : A) (l : list A) :
  ForallOrdPairs R l <->
  (forall i j, (i < j)%nat -> (j < length l)%nat -> R (nth i l d) (nth j l d)).
Proof.
  split.
  - induction 1 as [|a l Hf Hp IH]; simpl; intros i j Hij Hj; [lia|].
    destruct i as [|i], j as [|j]; try lia.
    + rewrite Forall_forall in Hf. apply Hf, nth_In. lia.
    + apply IH; lia.
  - induction l as [|a l IH]; intros H; constructor.
    + apply Forall_forall. intros x Hx.
      destruct (In_nth l x d Hx) as [j [Hj <-]].
      apply (H 0%nat (S j)); simpl; lia.
    + apply IH. intros i j Hij Hj. apply (H (S i) (S j)); simpl; lia.
Qed.

Lemma map_nth_seq_id {A} (d : A) (l : list A) :
  map (fun i => nth i l d) (seq 0 (length l)) = l.
Proof.
  induction l as [|a l IH]; simpl; [reflexivity|].
  f_equal. rewrite <- seq_shift, map_map. exact IH.
Qed.

Lemma ForallOrdPairs_nth_error {A} (R : A -> A -> Prop) (l : list A) k1 k2 x y :
  ForallOrdPairs R l -> (k1 < k2)%nat ->
  nth_error l k1 = Some x -> nth_error l k2 = Some y -> R x y.
Proof.
  intros Hp Hk H1 H2.
  assert (Hl : (k2 < length l)%nat).
  { apply nth_error_Some. rewrite H2. discriminate. }
  rewrite (ForallOrdPairs_nth_iff R x l) in Hp.
  rewrite <- (nth_error_nth l k1 x H1), <- (nth_error_nth l k2 x H2).
  apply Hp; assumption.
Qed.

Lemma nth_map_in {A B} (f : A -> B) (l : list A) (a : A) (b : B) (i : nat) :
  (i < length l)%nat -> nth i (map f l) b = f (nth i l a).
Proof.
  intros Hi. rewrite (nth_indep _ b (f a)) by (rewrite length_map; exact Hi).
  apply map_nth.
Qed.

(* ------------------------------------------------------------------ *)
(** ** Facts about [non_maximum_suppression] *)

Lemma valid_input_iff boxes probs thr :
  valid_input boxes probs thr = true <->
  length boxes = length probs /\ 0 < thr /\ thr <= 1 /\
  (forall p, In p probs -> (1 <= length p)%nat).
Proof.
  unfold valid_input, Qlt_bool.
  rewrite !andb_true_iff, Nat.eqb_eq, negb_true_iff, !Qle_bool_iff, forallb_forall.
  split.
  - intros [[[H1 H2] H3] H4]. repeat split; try assumption.
    + apply Qle_bool_false, H2.
    + intros p Hp. apply Nat.leb_le, H4, Hp.
  - intros (H1 & H2 & H3 & H4). repeat split; try assumption.
    + destruct (Qle_bool thr 0) eqn:E; [|reflexivity].
      apply Qle_bool_iff in E. lra.
    + intros p Hp. apply Nat.leb_le, H4, Hp.
Qed.

Lemma nms_output boxes probs thr kb kp :
  non_maximum_suppression boxes probs thr = inr (kb, kp) ->
  valid_input boxes probs thr = true /\
  kb = map (box_at boxes)
           (greedy boxes thr (sort_desc (obj_key probs) (seq 0 (length boxes)))) /\
  kp = map (prob_at probs)
           (greedy boxes thr (sort_desc (obj_key probs) (seq 0 (length boxes)))).
Proof.
  unfold non_maximum_suppression, obj_key.
  destruct (valid_input boxes probs thr); [|discriminate].
  intros H. injection H as <- <-. auto.
Qed.

(** The kept indices: distinct, in range, ranked by descending objectness
    with the input order as tie-break, and pairwise below the threshold. *)
Lemma nms_kept_indices boxes probs thr kb kp :
  non_maximum_suppression boxes probs thr = inr (kb, kp) ->
  exists idx,
    kb = map (box_at boxes) idx /\ kp = map (prob_at probs) idx /\
    NoDup idx /\ Forall (fun i => (i < length boxes)%nat) idx /\
    StronglySorted (ranks_before (obj_key probs)) idx /\
    ForallOrdPairs (fun i j => iou (box_at boxes i) (box_at boxes j) <= thr) idx /\
    valid_input boxes probs thr = true.
Proof.
  intros H. apply nms_output in H as (Hv & Hb & Hp).
  set (order := sort_desc (obj_key probs) (seq 0 (length boxes))) in *.
  exists (greedy boxes thr order). repeat split; try assumption.
  - apply greedy_NoDup.
    apply (Permutation_NoDup (Permutation_sym (sort_desc_perm _ _))), seq_NoDup.
  - apply Forall_forall. intros i Hi.
    apply greedy_incl in Hi.
    apply (Permutation_in _ (sort_desc_perm _ _)), in_seq in Hi. lia.
  - apply greedy_sorted, sort_desc_seq_sorted.
  - apply greedy_pairwise.
Qed.

Lemma forallb_false_exists {A} (f : A -> bool) (l : list A) :
  forallb f l = false -> exists x, In x l /\ f x = false.
Proof.
  induction l as [|a l IH]; simpl; [discriminate|].
  destruct (f a) eqn:Ha; simpl.
  - intros H. destruct (IH H) as [x [Hx Hf]]. exists x. auto.
  - intros _. exists a. auto.
Qed.

Lemma greedy_nil boxes thr : greedy boxes thr [] = [].
Proof. simp greedy. reflexivity. Qed.

Lemma greedy_pair boxes thr i j :
  iou (box_at boxes i) (box_at boxes j) <= thr ->
  greedy boxes thr [i; j] = [i; j].
Proof.
  intros H. rewrite greedy_nil_cons, suppress_filter. simpl.
  unfold keeps. apply Qle_bool_iff in H. rewrite H.
  rewrite greedy_nil_cons, suppress_filter. simpl. rewrite greedy_nil. reflexivity.
Qed.

(* ------------------------------------------------------------------ *)
(** ** Claims about [non_maximum_suppression] *)

(** C1: any two distinct kept detections have IoU at most the threshold;
    a greedy step removes exactly the remaining indices whose IoU with the
    popped box is strictly greater than the threshold, so one at exactly the
    threshold is kept; in particular two detections whose IoU equals the
    threshold are both kept. *)
Theorem nms_kept_pairwise_iou_le_threshold :
  (forall boxes probs thr kb kp,
      non_maximum_suppression boxes probs thr = inr (kb, kp) ->
      forall k1 k2 b1 b2, k1 <> k2 ->
        nth_error kb k1 = Some b1 -> nth_error kb k2 = Some b2 ->
        iou b1 b2 <= thr) /\
  (forall boxes thr p rest r, In r rest ->
      (In r (suppress boxes thr p rest) <->
       ~ thr < iou (box_at boxes p) (box_at boxes r))) /\
  (forall b1 b2 p1 p2 thr kb kp,
      non_maximum_suppression [b1; b2] [p1; p2] thr = inr (kb, kp) ->
      iou b1 b2 == thr ->
      kb = [b1; b2] \/ kb = [b2; b1]).
Proof.
  split; [|split].
  - intros boxes probs thr kb kp H k1 k2 b1 b2 Hne H1 H2.
    destruct (nms_kept_indices _ _ _ _ _ H) as (idx & Hb & _ & _ & _ & _ & Hpw & _).
    subst kb. rewrite nth_error_map in H1, H2.
    destruct (nth_error idx k1) as [i1|] eqn:E1; [|discriminate].
    destruct (nth_error idx k2) as [i2|] eqn:E2; [|discriminate].
    injection H1 as <-. injection H2 as <-.
    destruct (Nat.lt_gt_cases k1 k2) as [[Hlt|Hgt] _]; [exact Hne| |].
    + apply (ForallOrdPairs_nth_error _ _ _ _ _ _ Hpw Hlt E1 E2).
    + rewrite iou_comm.
      apply (ForallOrdPairs_nth_error _ _ _ _ _ _ Hpw Hgt E2 E1).
  - intros boxes thr p rest r Hr. rewrite in_suppress. split.
    + intros [_ Hle] Hlt. apply (Qlt_not_le _ _ Hlt Hle).
    + intros Hn. split; [exact Hr|]. apply Qnot_lt_le, Hn.
  - intros b1 b2 p1 p2 thr kb kp H Heq.
    apply nms_output in H as (_ & Hb & _). subst kb. simpl.
    destruct (Qlt_bool (obj_key [p1; p2] 0) (obj_key [p1; p2] 1)).
    + right. rewrite greedy_pair; [reflexivity|].
      unfold box_at; simpl. rewrite iou_comm, Heq. apply Qle_refl.
    + left. rewrite greedy_pair; [reflexivity|].
      unfold box_at; simpl. rewrite Heq. apply Qle_refl.
Qed.

(** C3: [non_maximum_suppression] returns [InvalidInput] exactly when the
    lengths differ, the threshold is outside (0, 1], or some probability
    vector is empty; on every other input it returns its result. *)
Theorem nms_invalid_input_iff :
  (forall boxes probs thr,
      non_maximum_suppression boxes probs thr = inl InvalidInput <->
      length boxes <> length probs \/ ~ (0 < thr /\ thr <= 1) \/
      (exists p, In p probs /\ (length p < 1)%nat)) /\
  (forall boxes probs thr,
      length boxes = length probs -> 0 < thr -> thr <= 1 ->
      (forall p, In p probs -> (1 <= length p)%nat) ->
      exists kb kp, non_maximum_suppression boxes probs thr = inr (kb, kp)).
Proof.
  split.
  - intros boxes probs thr. unfold non_maximum_suppression.
    destruct (valid_input boxes probs thr) eqn:Hv.
    + apply valid_input_iff in Hv as (H1 & H2 & H3 & H4).
      split; [discriminate|].
      intros [H|[H|[p [Hp Hl]]]]; exfalso.
      * exact (H H1).
      * exact (H (conj H2 H3)).
      * specialize (H4 p Hp). lia.
    + split; [intros _|reflexivity].
      destruct (Nat.eq_dec (length boxes) (length probs)) as [E|E]; [|left; exact E].
      right.
      destruct (Qlt_le_dec 0 thr) as [Ht|Ht];
        [|left; intros [Ht' _]; apply (Qlt_not_le _ _ Ht' Ht)].
      destruct (Qlt_le_dec 1 thr) as [Ht1|Ht1];
        [left; intros [_ Ht']; apply (Qlt_not_le _ _ Ht1 Ht')|].
      right.
      destruct (forallb (fun p => Nat.leb 1 (length p)) probs) eqn:Hf.
      * exfalso. assert (valid_input boxes probs thr = true) as Hv'; [|congruence].
        apply valid_input_iff. repeat split; try assumption.
        intros p Hp. rewrite forallb_forall in Hf. apply Nat.leb_le, Hf, Hp.
      * apply forallb_false_exists in Hf as [p [Hin Hl]]. exists p.
        split; [exact Hin|]. apply Nat.leb_nle in Hl. lia.
  - intros boxes probs thr H1 H2 H3 H4. unfold non_maximum_suppression.
    assert (Hv : valid_input boxes probs thr = true) by
      (apply valid_input_iff; auto).
    rewrite Hv. eexists; eexists; reflexivity.
Qed.

(** C4: the output projects the input boxes and probability vectors at
    distinct retained indices, listed by descending objectness with ties in
    input order; hence it never has more boxes than the input. *)
Theorem nms_output_is_sorted_projection boxes probs thr kb kp
    (H : non_maximum_suppression boxes probs thr = inr (kb, kp)) :
  exists idx,
    kb = map (box_at boxes) idx /\ kp = map (prob_at probs) idx /\
    NoDup idx /\ Forall (fun i => (i < length boxes)%nat) idx /\
    StronglySorted (ranks_before (fun i => objectness (prob_at probs i))) idx /\
    (length kb <= length boxes)%nat.
Proof.
  destruct (nms_kept_indices _ _ _ _ _ H) as (idx & Hb & Hp & Hn & Hr & Hs & _ & _).
  exists idx. repeat split; try assumption.
  subst kb. rewrite length_map.
  rewrite <- (length_seq (length boxes) 0).
  apply NoDup_incl_length; [exact Hn|].
  intros i Hi. rewrite Forall_forall in Hr. apply in_seq. specialize (Hr i Hi). lia.
Qed.

(** Witness of C4 on the demo detection set. *)
Lemma nms_output_is_sorted_projection_witness :
  exists idx,
    demo_kept_boxes = map (box_at demo_boxes) idx /\
    demo_kept_probs = map (prob_at demo_probs) idx /\
    NoDup idx /\ Forall (fun i => (i < length demo_boxes)%nat) idx /\
    StronglySorted (ranks_before (fun i => objectness (prob_at demo_probs i))) idx /\
    (length demo_kept_boxes <= length demo_boxes)%nat.
Proof.
  apply (nms_output_is_sorted_projection demo_boxes demo_probs (1 # 2)).
  vm_compute. reflexivity.
Defined.

(** C7: running [non_maximum_suppression] again on its own output with the
    same threshold returns that output unchanged. *)
Theorem nms_idempotent boxes probs thr kb kp
    (H : non_maximum_suppression boxes probs thr = inr (kb, kp)) :
  non_maximum_suppression kb kp thr = inr (kb, kp).
Proof.
  destruct (nms_kept_indices _ _ _ _ _ H) as (idx & Hb & Hp & _ & Hr & Hs & Hpw & Hv).
  apply valid_input_iff in Hv as (Hl & Ht0 & Ht1 & Hpl).
  assert (HK : length kb = length idx) by (subst kb; apply length_map).
  assert (HKp : length kp = length idx) by (subst kp; apply length_map).
  assert (Hbox : forall i, (i < length idx)%nat ->
            box_at kb i = box_at boxes (nth i idx 0%nat)).
  { intros i Hi. subst kb. unfold box_at at 1. apply nth_map_in, Hi. }
  assert (Hprob : forall i, (i < length idx)%nat ->
            prob_at kp i = prob_at probs (nth i idx 0%nat)).
  { intros i Hi. subst kp. unfold prob_at at 1. apply nth_map_in, Hi. }
  unfold non_maximum_suppression.
  assert (Hv2 : valid_input kb kp thr = true).
  { apply valid_input_iff. repeat split; try assumption; [lia|].
    intros p Hin. subst kp. apply in_map_iff in Hin as [i [<- Hi]].
    apply Hpl. unfold prob_at. apply nth_In.
    rewrite Forall_forall in Hr. specialize (Hr i Hi). lia. }
  rewrite Hv2.
  rewrite StronglySorted_ForallOrdPairs, (ForallOrdPairs_nth_iff _ 0%nat) in Hs.
  rewrite (ForallOrdPairs_nth_iff _ 0%nat) in Hpw.
  assert (Hsort : sort_desc (fun i => objectness (prob_at kp i)) (seq 0 (length kb))
                  = seq 0 (length kb)).
  { apply sort_desc_id, StronglySorted_ForallOrdPairs.
    apply (ForallOrdPairs_nth_iff _ 0%nat). rewrite length_seq.
    intros i j Hij Hj. rewrite !seq_nth by lia. simpl.
    rewrite !Hprob by lia.
    destruct (Hs i j Hij ltac:(lia)) as [Hlt|[Heq _]]; unfold obj_key in *.
    - apply Qlt_le_weak, Hlt.
    - rewrite Heq. apply Qle_refl. }
  rewrite Hsort.
  rewrite greedy_no_overlap.
  - f_equal. f_equal.
    + apply map_nth_seq_id.
    + rewrite HK, <- HKp. apply map_nth_seq_id.
  - apply (ForallOrdPairs_nth_iff _ 0%nat). rewrite length_seq.
    intros i j Hij Hj. rewrite !seq_nth by lia. simpl.
    rewrite !Hbox by lia. apply Hpw; lia.
Qed.

(** Witness of C7 on the demo detection set. *)
Lemma nms_idempotent_witness :
  non_maximum_suppression demo_kept_boxes demo_kept_probs (1 # 2)
  = inr (demo_kept_boxes, demo_kept_probs).
Proof.
  apply (nms_idempotent demo_boxes demo_probs (1 # 2)).
  vm_compute. reflexivity.
Defined.

(* ------------------------------------------------------------------ *)
(** ** Claims about [batch_iou] *)

(** C2: on the course fixture, [batch_iou] returns four values equal to
    [2/3, 1/9, 0, 0], each within [1e-6] of the ground truth. *)
Theorem batch_iou_fixture :
  length (batch_iou fixture_reference fixture_boxes) = 4%nat /\
  Forall2 (fun v g => v == g /\ Qabs (v - g) <= 1 # 1000000)
          (batch_iou fixture_reference fixture_boxes) fixture_iou_gt.
Proof.
  split; [reflexivity|].
  vm_compute.
  repeat constructor; vm_compute; try reflexivity; discriminate.
Qed.

(** C5: [batch_iou] is total on degenerate boxes: a candidate with
    positive union gets intersection / union, one with zero union gets 0;
    for boxes with [left <= right] and [top <= bottom] the union is zero
    exactly when both boxes have zero area. *)
Theorem batch_iou_degenerate_safe :
  (forall reference cands k c,
      nth_error cands k = Some c ->
      (0 < union_area reference c ->
       nth_error (batch_iou reference cands) k =
         Some (intersection_area reference c / union_area reference c)) /\
      (union_area reference c == 0 ->
       nth_error (batch_iou reference cands) k = Some 0)) /\
  (forall a b, well_formed a -> well_formed b ->
      (union_area a b == 0 <-> area a == 0 /\ area b == 0)).
Proof.
  split.
  - intros reference cands k c Hc. unfold batch_iou.
    rewrite nth_error_map, Hc. simpl. split.
    + intros H. rewrite iou_positive_union by exact H. reflexivity.
    + intros H. rewrite iou_zero_union by exact H. reflexivity.
  - exact union_zero_iff_degenerate.
Qed.

(** C6: one IoU per candidate, in candidate order, each in [0, 1]. *)
Theorem batch_iou_one_per_candidate_bounded (reference : Rectangle)
    (cands : list Rectangle) :
  length (batch_iou reference cands) = length cands /\
  (forall k c, nth_error cands k = Some c ->
     nth_error (batch_iou reference cands) k = Some (iou reference c)) /\
  Forall (fun v => 0 <= v /\ v <= 1) (batch_iou reference cands).
Proof.
  unfold batch_iou. split; [apply length_map|split].
  - intros k c Hc. rewrite nth_error_map, Hc. reflexivity.
  - apply Forall_forall. intros v Hv. apply in_map_iff in Hv as [c [<- _]].
    apply iou_bounds.
Qed.

(** C8: IoU is symmetric: [batch_iou a [b]] and [batch_iou b [a]] hold
    the same value. *)
Theorem batch_iou_symmetric (a b : Rectangle) :
  exists x y, batch_iou a [b] = [x] /\ batch_iou b [a] = [y] /\ x == y.
Proof.
  exists (iou a b), (iou b a). split; [reflexivity|split; [reflexivity|]].
  apply iou_comm.
Qed.

(* ------------------------------------------------------------------ *)
(** ** Claims about [check_batch_iou] *)

Section CheckFacts.

Variable F : Type.
Variable fsub : F -> F -> F.
Variable fabs : F -> F.
Variable fgt : F -> F -> bool.
Variable tol : F.
Variables g0 g1 g2 g3 : F.

Lemma check_entries_outcome (is : list nat) (res : list F) :
  (forall i, In i is -> (i < length res)%nat /\ (i < 4)%nat) ->
  (check_entries F fsub fabs fgt tol g0 g1 g2 g3 is res = Returned [OkMsg] true <->
   forall i x g, In i is -> nth_error res i = Some x ->
     nth_error (iou_gt F g0 g1 g2 g3) i = Some g -> fgt (fabs (fsub x g)) tol = false) /\
  (check_entries F fsub fabs fgt tol g0 g1 g2 g3 is res = Returned [OkMsg] true \/
   exists d, d <> OkMsg /\
     check_entries F fsub fabs fgt tol g0 g1 g2 g3 is res = Returned [d] false).
Proof.
  induction is as [|i is IH]; intros Hin; simpl.
  - split; [split; [intros _ i x g []|reflexivity]|left; reflexivity].
  - destruct (Hin i (or_introl eq_refl)) as [Hr Hg].
    destruct (nth_error res i) as [x|] eqn:Ex;
      [|apply nth_error_None in Ex; lia].
    destruct (nth_error (iou_gt F g0 g1 g2 g3) i) as [g|] eqn:Eg;
      [|apply nth_error_None in Eg; simpl in Eg; lia].
    destruct (fgt (fabs (fsub x g)) tol) eqn:Ef.
    + split.
      * split; [discriminate|]. intros H. rewrite (H i x g (or_introl eq_refl) Ex Eg) in Ef.
        discriminate.
      * right. exists (WrongIoU i x g). split; [discriminate|reflexivity].
    + destruct (IH (fun j Hj => Hin j (or_intror Hj))) as [IH1 IH2].
      split; [|exact IH2].
      rewrite IH1. split.
      * intros H j y h [<-|Hj] Ey Eh.
        -- rewrite Ex in Ey. rewrite Eg in Eh. injection Ey as <-. injection Eh as <-.
           exact Ef.
        -- apply (H j y h Hj Ey Eh).
      * intros H j y h Hj Ey Eh. apply (H j y h (or_intror Hj) Ey Eh).
Qed.

Lemma check_batch_iou_wrong_shape (r : Tensor F) :
  shape r <> [4%nat] ->
  check_batch_iou F fsub fabs fgt tol g0 g1 g2 g3 r = Returned [WrongOutputSize] false.
Proof.
  unfold check_batch_iou.
  destruct (shape r) as [|n [|m l]]; intros Hs; try reflexivity;
    destruct n as [|[|[|[|[|n]]]]]; try reflexivity. congruence.
Qed.


End CheckFacts.



(* ------------------------------------------------------------------ *)
(** ** Claims about [draw_boxes] *)

Lemma max_from_spec (xs : list Q) (i : nat) (best : Q) (bi : nat) :
  let r := max_from i best bi xs in
  ((fst r = best /\ snd r = bi) \/
   exists k, nth_error xs k = Some (fst r) /\ snd r = (i + k)%nat) /\
  best <= fst r /\ (forall x, In x xs -> x <= fst r).
Proof.
  revert i best bi. induction xs as [|x xs IH]; intros i best bi; simpl.
  - split; [left; split; reflexivity|split; [apply Qle_refl|intros x []]].
  - destruct (Qlt_bool best x) eqn:Hc.
    + unfold Qlt_bool in Hc. apply negb_true_iff, Qle_bool_false in Hc.
      destruct (IH (S i) x i) as (H1 & H2 & H3).
      split; [|split].
      * right. destruct H1 as [[E1 E2]|[k [Ek E]]].
        -- exists 0%nat. rewrite E1, E2. simpl. split; [reflexivity|lia].
        -- exists (S k). simpl. split; [exact Ek|lia].
      * lra.
      * intros y [<-|Hy]; [exact H2|apply H3, Hy].
    + unfold Qlt_bool in Hc. apply negb_false_iff, Qle_bool_iff in Hc.
      destruct (IH (S i) best bi) as (H1 & H2 & H3).
      split; [|split].
      * destruct H1 as [[E1 E2]|[k [Ek E]]]; [left; split; assumption|].
        right. exists (S k). simpl. split; [exact Ek|lia].
      * exact H2.
      * intros y [<-|Hy]; [lra|apply H3, Hy].
Qed.

(** [tensor_max] returns an entry of the vector, at its index, that is at
    least every entry. *)
Lemma tensor_max_spec (p : ProbVector) (s : Q) (l : nat) :
  tensor_max p = Some (s, l) ->
  nth_error p l = Some s /\ (forall x, In x p -> x <= s).
Proof.
  destruct p as [|x xs]; simpl; [discriminate|]. intros H. injection H as Hm.
  destruct (max_from_spec xs 1 x 0) as (H1 & H2 & H3). rewrite Hm in *. simpl in *.
  split.
  - destruct H1 as [[-> ->]|[k [Ek ->]]]; [reflexivity|exact Ek].
  - intros y [<-|Hy]; [exact H2|apply H3, Hy].
Qed.

Lemma renders_iff (p : ProbVector) :
  renders p = true <->
  exists s l, tensor_max p = Some (s, l) /\ CONFIDENCE_THRESHOLD <= s /\ l <> 91%nat.
Proof.
  unfold renders. destruct (tensor_max p) as [[s l]|].
  - unfold Qlt_bool. rewrite andb_true_iff, !negb_true_iff, negb_false_iff,
      Qle_bool_iff, Nat.eqb_neq.
    split; [intros [H1 H2]; exists s, l; auto|].
    intros (s' & l' & E & H1 & H2). injection E as <- <-. auto.
  - split; [discriminate|]. intros (s & l & E & _). discriminate.
Qed.

Lemma draw_loop_filter {Label} (id2label : nat -> option Label) (W H : Q)
    (ps : list ProbVector) (bs : list Rectangle) :
  (forall p, In p ps -> p <> []) ->
  (forall p s l, In p ps -> tensor_max p = Some (s, l) -> renders p = true ->
     id2label l <> None) ->
  snd (draw_loop id2label W H ps bs) = false /\
  map patch_rect (fst (draw_loop id2label W H ps bs)) =
  map (fun pb => box_rect W H (snd pb)) (filter (fun pb => renders (fst pb)) (combine ps bs)).
Proof.
  revert bs. induction ps as [|p ps IH]; intros bs Hne Hlab;
    [destruct bs; split; reflexivity|].
  destruct bs as [|b bs]; [split; reflexivity|].
  assert (IH' := IH bs (fun q Hq => Hne q (or_intror Hq))
                       (fun q s l Hq => Hlab q s l (or_intror Hq))).
  simpl. unfold renders at 1.
  destruct (tensor_max p) as [[s l]|] eqn:Em;
    [|destruct p; [exfalso; apply (Hne [] (or_introl eq_refl)); reflexivity|discriminate]].
  destruct (Qlt_bool s CONFIDENCE_THRESHOLD) eqn:Hs; simpl; [exact IH'|].
  destruct (Nat.eqb l 91) eqn:Hl; simpl; [exact IH'|].
  destruct (id2label l) as [name|] eqn:En.
  - destruct (draw_loop id2label W H ps bs) as [rest raised]. simpl in *.
    destruct IH' as [IH1 IH2]. split; [exact IH1|]. rewrite IH2. reflexivity.
  - exfalso. apply (Hlab p s l (or_introl eq_refl) Em); [|exact En].
    unfold renders. rewrite Em, Hs, Hl. reflexivity.
Qed.



(* ------------------------------------------------------------------ *)
(** ** Further properties of [check_batch_iou] *)

Section CheckMore.

Variable F : Type.
Variable fsub : F -> F -> F.
Variable fabs : F -> F.
Variable fgt : F -> F -> bool.
Variable tol : F.
Variables g0 g1 g2 g3 : F.

Lemma check_entries_seq (res : list F) (n s : nat) :
  (s + n <= 4)%nat -> (s + n <= length res)%nat ->
  check_entries F fsub fabs fgt tol g0 g1 g2 g3 (seq s n) res <> Raised /\
  (forall i x g,
     check_entries F fsub fabs fgt tol g0 g1 g2 g3 (seq s n) res
       = Returned [WrongIoU i x g] false ->
     (s <= i < s + n)%nat /\ nth_error res i = Some x /\
     nth_error (iou_gt F g0 g1 g2 g3) i = Some g /\ fgt (fabs (fsub x g)) tol = true /\
     (forall j y h, (s <= j < i)%nat -> nth_error res j = Some y ->
        nth_error (iou_gt F g0 g1 g2 g3) j = Some h -> fgt (fabs (fsub y h)) tol = false)).
Proof.
  revert s. induction n as [|n IH]; intros s H4 Hl; simpl.
  - split; [discriminate|]. intros i x g E. discriminate.
  - destruct (nth_error res s) as [x|] eqn:Ex; [|apply nth_error_None in Ex; lia].
    destruct (nth_error (iou_gt F g0 g1 g2 g3) s) as [g|] eqn:Eg;
      [|apply nth_error_None in Eg; simpl in Eg; lia].
    destruct (fgt (fabs (fsub x g)) tol) eqn:Ef.
    + split; [discriminate|].
      intros i y h E. injection E as <- <- <-.
      repeat split; try assumption; try lia.
    + destruct (IH (S s) ltac:(lia) ltac:(lia)) as [IH1 IH2].
      split; [exact IH1|].
      intros i y h E. destruct (IH2 i y h E) as (Hi & Ey & Eh & Eb & Hpre).
      repeat split; try assumption; try lia.
      intros j z k Hj Ez Ek.
      destruct (Nat.eq_dec j s) as [->|Hne].
      * rewrite Ex in Ez. rewrite Eg in Ek. injection Ez as <-. injection Ek as <-. exact Ef.
      * apply (Hpre j z k); [lia|assumption|assumption].
Qed.



End CheckMore.



(* ------------------------------------------------------------------ *)
(** ** Further properties of [draw_boxes] *)

Lemma max_from_first (xs : list Q) (i : nat) (best : Q) (bi : nat) :
  let r := max_from i best bi xs in
  (snd r = bi /\ fst r = best) \/
  (best < fst r /\ (i <= snd r)%nat /\
   forall k y, (i + k < snd r)%nat -> nth_error xs k = Some y -> y < fst r).
Proof.
  revert i best bi. induction xs as [|x xs IH]; intros i best bi; simpl;
    [left; split; reflexivity|].
  destruct (Qlt_bool best x) eqn:Hc.
  - unfold Qlt_bool in Hc. apply negb_true_iff, Qle_bool_false in Hc.
    destruct (IH (S i) x i) as [[E1 E2]|(H1 & H2 & H3)]; right.
    + rewrite E1, E2. split; [exact Hc|split; [lia|]]. intros k y Hk. lia.
    + split; [lra|split; [lia|]].
      intros [|k] y Hk Ey; simpl in Ey.
      * injection Ey as <-. exact H1.
      * apply (H3 k y); [lia|exact Ey].
  - unfold Qlt_bool in Hc. apply negb_false_iff, Qle_bool_iff in Hc.
    destruct (IH (S i) best bi) as [[E1 E2]|(H1 & H2 & H3)]; [left; split; assumption|].
    right. split; [exact H1|split; [lia|]].
    intros [|k] y Hk Ey; simpl in Ey.
    + injection Ey as <-. lra.
    + apply (H3 k y); [lia|exact Ey].
Qed.

(** [p.max(dim=-1)] returns the first index of the maximum: every entry
    before the returned label is strictly smaller.  So a class slot that
    ties with the background slot 91 wins, and the detection is not
    skipped as background. *)
Theorem tensor_max_first_index (p : ProbVector) (s : Q) (l : nat)
    (H : tensor_max p = Some (s, l)) :
  forall k x, (k < l)%nat -> nth_error p k = Some x -> x < s.
Proof.
  destruct p as [|x xs]; simpl in H; [discriminate|]. injection H as Hm.
  destruct (max_from_first xs 1 x 0) as [[E1 E2]|(H1 & H2 & H3)];
    rewrite Hm in *; simpl in *.
  - intros k y Hk. lia.
  - intros [|k] y Hk Ey; simpl in Ey.
    + injection Ey as <-. exact H1.
    + apply (H3 k y); [lia|exact Ey].
Qed.

(** Witness: with [0.5] at slot 3 and at slot 91, the label is 3. *)
Lemma tensor_max_first_index_witness :
  tensor_max (repeat 0 3 ++ [1 # 2] ++ repeat 0 87 ++ [1 # 2]) = Some (1 # 2, 3%nat) /\
  0 < 1 # 2.
Proof.
  split; [vm_compute; reflexivity|].
  apply (tensor_max_first_index (repeat 0 3 ++ [1 # 2] ++ repeat 0 87 ++ [1 # 2])
           (1 # 2) 3 ltac:(vm_compute; reflexivity) 2 0).
  - lia.
  - reflexivity.
Defined.

(** Every patch [draw_boxes] draws comes from a pair of [zip(probs, boxes)]
    whose maximum is at least [CONFIDENCE_THRESHOLD], whose argmax is not
    91 and whose label [id2label] knows, scaled to the image size. *)
Theorem draw_boxes_only_confident_objects {Label} (id2label : nat -> option Label)
    (W H : Q) (boxes : list Rectangle) (probs : list ProbVector) :
  forall pt, In pt (fst (draw_boxes id2label W H boxes probs)) ->
  exists p b s l name,
    In (p, b) (combine probs boxes) /\ tensor_max p = Some (s, l) /\
    CONFIDENCE_THRESHOLD <= s /\ l <> 91%nat /\ id2label l = Some name /\
    pt = patch_of name s W H b.
Proof.
  unfold draw_boxes. revert boxes.
  induction probs as [|p ps IH]; intros [|b bs] pt Hin; simpl in Hin; try contradiction.
  destruct (tensor_max p) as [[s l]|] eqn:Em; [|contradiction].
  destruct (Qlt_bool s CONFIDENCE_THRESHOLD) eqn:Hs.
  { destruct (IH bs pt Hin) as (q & c & s' & l' & nm & Hq & R).
    exists q, c, s', l', nm. split; [right; exact Hq|exact R]. }
  destruct (Nat.eqb l 91) eqn:Hl.
  { destruct (IH bs pt Hin) as (q & c & s' & l' & nm & Hq & R).
    exists q, c, s', l', nm. split; [right; exact Hq|exact R]. }
  destruct (id2label l) as [name|] eqn:En; [|contradiction].
  destruct (draw_loop id2label W H ps bs) as [rest raised] eqn:Ed.
  simpl in Hin. destruct Hin as [<-|Hin].
  - exists p, b, s, l, name. split; [left; reflexivity|].
    unfold Qlt_bool in Hs. apply negb_false_iff, Qle_bool_iff in Hs.
    apply Nat.eqb_neq in Hl. auto 6.
  - assert (Hin' : In pt (fst (draw_loop id2label W H ps bs))) by (rewrite Ed; exact Hin).
    destruct (IH bs pt Hin') as (q & c & s' & l' & nm & Hq & R).
    exists q, c, s', l', nm. split; [right; exact Hq|exact R].
Qed.

(** Witness: one confident detection of label 0 on a 2 x 3 image. *)
Lemma draw_boxes_only_confident_objects_witness :
  In (patch_of 0%nat (9 # 10) 2 3 (Rect 0 0 1 1))
     (fst (draw_boxes yolos_id2label 2 3 [Rect 0 0 1 1] [[9 # 10; 1 # 10]])) /\
  exists p b s l name,
    In (p, b) (combine [[9 # 10; 1 # 10]] [Rect 0 0 1 1]) /\ tensor_max p = Some (s, l) /\
    CONFIDENCE_THRESHOLD <= s /\ l <> 91%nat /\ yolos_id2label l = Some name /\
    patch_of 0%nat (9 # 10) 2 3 (Rect 0 0 1 1) = patch_of name s 2 3 b.
Proof.
  assert (Hin : In (patch_of 0%nat (9 # 10) 2 3 (Rect 0 0 1 1))
     (fst (draw_boxes yolos_id2label 2 3 [Rect 0 0 1 1] [[9 # 10; 1 # 10]])))
    by (vm_compute; left; reflexivity).
  split; [exact Hin|].
  exact (draw_boxes_only_confident_objects yolos_id2label 2 3 _ _ _ Hin).
Defined.

(** [draw_boxes] draws at most one patch per pair of [zip(probs, boxes)]:
    never more than the shorter of the two lists. *)
Theorem draw_boxes_count_le {Label} (id2label : nat -> option Label)
    (W H : Q) (boxes : list Rectangle) (probs : list ProbVector) :
  (length (fst (draw_boxes id2label W H boxes probs)) <=
   Nat.min (length probs) (length boxes))%nat.
Proof.
  unfold draw_boxes. revert boxes.
  induction probs as [|p ps IH]; intros [|b bs]; simpl; try lia.
  pose proof (IH bs) as IHb.
  destruct (tensor_max p) as [[s l]|]; simpl; [|lia].
  destruct (Qlt_bool s CONFIDENCE_THRESHOLD); [lia|].
  destruct (Nat.eqb l 91); [lia|].
  destruct (id2label l); simpl; [|lia].
  destruct (draw_loop id2label W H ps bs) as [rest raised]. simpl in *. lia.
Qed.

(** Drawing a concatenation of detection lists draws the patches of the
    first list and then, unless the first raised, those of the second;
    after a raise nothing further is drawn. *)
Theorem draw_boxes_app {Label} (id2label : nat -> option Label) (W H : Q)
    (b1 b2 : list Rectangle) (p1 p2 : list ProbVector)
    (Hlen : length p1 = length b1) :
  draw_boxes id2label W H (b1 ++ b2) (p1 ++ p2) =
  let (a, raised) := draw_boxes id2label W H b1 p1 in
  if raised then (a, true)
  else let (b, raised2) := draw_boxes id2label W H b2 p2 in (a ++ b, raised2).
Proof.
  unfold draw_boxes. revert b1 Hlen.
  induction p1 as [|p ps IH]; intros [|b bs] Hlen; simpl in Hlen; try discriminate.
  - simpl. destruct (draw_loop id2label W H p2 b2). reflexivity.
  - injection Hlen as Hlen. simpl.
    destruct (tensor_max p) as [[s l]|]; [|reflexivity].
    destruct (Qlt_bool s CONFIDENCE_THRESHOLD); [apply IH, Hlen|].
    destruct (Nat.eqb l 91); [apply IH, Hlen|].
    destruct (id2label l) as [name|]; [|reflexivity].
    rewrite (IH bs Hlen).
    destruct (draw_loop id2label W H ps bs) as [a r].
    destruct r; [reflexivity|].
    destruct (draw_loop id2label W H p2 b2). reflexivity.
Qed.

(** Witness: two single detections drawn one after the other. *)
Lemma draw_boxes_app_witness :
  draw_boxes yolos_id2label 1 1 ([zero_rect] ++ [Rect 0 0 1 1])
      ([[9 # 10; 1 # 10]] ++ [[1 # 10; 9 # 10]]) =
  let (a, raised) := draw_boxes yolos_id2label 1 1 [zero_rect] [[9 # 10; 1 # 10]] in
  if raised then (a, true)
  else let (b, raised2) := draw_boxes yolos_id2label 1 1 [Rect 0 0 1 1] [[1 # 10; 9 # 10]] in
       (a ++ b, raised2).
Proof. apply draw_boxes_app. reflexivity. Defined.

(* ------------------------------------------------------------------ *)
(** ** Display normalisation *)

Lemma fold_min_spec (xs : list Q) (x : Q) :
  In (fold_left Qmin xs x) (x :: xs) /\
  forall y, In y (x :: xs) -> fold_left Qmin xs x <= y.
Proof.
  revert x. induction xs as [|z xs IH]; intros x; simpl.
  - split; [left; reflexivity|intros y [<-|[]]; apply Qle_refl].
  - destruct (IH (Qmin x z)) as [H1 H2]. split.
    + destruct H1 as [E|E]; [|right; right; exact E].
      destruct (Q.min_spec x z) as [[_ Em]|[_ Em]];
        unfold Qmin in *; unfold GenericMinMax.gmin in *;
        destruct (x ?= z); rewrite <- E; auto.
    + intros y [<-|[<-|Hy]].
      * eapply Qle_trans; [apply H2; left; reflexivity|apply Q.le_min_l].
      * eapply Qle_trans; [apply H2; left; reflexivity|apply Q.le_min_r].
      * apply H2. right. exact Hy.
Qed.

Lemma fold_max_spec (xs : list Q) (x : Q) :
  In (fold_left Qmax xs x) (x :: xs) /\
  forall y, In y (x :: xs) -> y <= fold_left Qmax xs x.
Proof.
  revert x. induction xs as [|z xs IH]; intros x; simpl.
  - split; [left; reflexivity|intros y [<-|[]]; apply Qle_refl].
  - destruct (IH (Qmax x z)) as [H1 H2]. split.
    + destruct H1 as [E|E]; [|right; right; exact E].
      unfold Qmax in *; unfold GenericMinMax.gmax in *;
        destruct (x ?= z); rewrite <- E; auto.
    + intros y [<-|[<-|Hy]].
      * eapply Qle_trans; [apply Q.le_max_l|apply H2; left; reflexivity].
      * eapply Qle_trans; [apply Q.le_max_r|apply H2; left; reflexivity].
      * apply H2. right. exact Hy.
Qed.

(** When the tensor is not constant, [value - value.min()] divided by its
    maximum maps every entry into [0, 1], keeps the number of entries, and
    sends some entry to 0 and some entry to 1. *)
Theorem normalize_for_display_range (v out : list Q)
    (Hn : normalize_for_display v = Some out)
    (Hnc : exists a b, In a v /\ In b v /\ a < b) :
  length out = length v /\
  Forall (fun z => 0 <= z /\ z <= 1) out /\
  (exists z, In z out /\ z == 0) /\ (exists z, In z out /\ z == 1).
Proof.
  destruct v as [|x xs]; [discriminate|].
  unfold normalize_for_display in Hn.
  change (tensor_min (x :: xs)) with (Some (fold_left Qmin xs x)) in Hn.
  cbv beta iota zeta in Hn.
  set (mn := fold_left Qmin xs x) in *.
  destruct (fold_min_spec xs x) as [Hmn_in Hmn_le]. fold mn in Hmn_in, Hmn_le.
  remember (map (fun y => y - mn) (x :: xs)) as v1 eqn:Ev1.
  destruct v1 as [|y ys]; [discriminate|].
  unfold tensor_maxval in Hn. injection Hn as <-.
  set (mx := fold_left Qmax ys y) in *.
  destruct (fold_max_spec ys y) as [Hmx_in Hmx_le]. fold mx in Hmx_in, Hmx_le.
  assert (Hin1 : forall z, In z (y :: ys) <-> exists w, In w (x :: xs) /\ z = w - mn).
  { intros z. rewrite Ev1, in_map_iff.
    split; intros [w [H1 H2]]; exists w; auto. }
  assert (Hpos : 0 < mx).
  { destruct Hnc as (a & b & Ha & Hb & Hab).
    assert (Hb1 : In (b - mn) (y :: ys)) by (apply Hin1; exists b; auto).
    pose proof (Hmx_le _ Hb1). pose proof (Hmn_le a Ha). lra. }
  assert (Hnn : forall z, In z (y :: ys) -> 0 <= z).
  { intros z Hz. apply Hin1 in Hz as [w [Hw ->]]. pose proof (Hmn_le w Hw). lra. }
  change (y / mx :: map (fun z => z / mx) ys) with (map (fun z => z / mx) (y :: ys)).
  split; [|split; [|split]].
  - rewrite length_map, Ev1, length_map. reflexivity.
  - apply Forall_forall. intros z Hz. apply in_map_iff in Hz as [w [<- Hw]].
    pose proof (Hnn w Hw). pose proof (Hmx_le w Hw). split.
    + apply Qle_shift_div_l; [exact Hpos|]. lra.
    + apply Qle_shift_div_r; [exact Hpos|]. lra.
  - exists ((mn - mn) / mx). split.
    + apply (in_map (fun z => z / mx)). apply Hin1. exists mn. auto.
    + unfold Qdiv. ring.
  - exists (mx / mx). split.
    + apply (in_map (fun z => z / mx)). exact Hmx_in.
    + unfold Qdiv. apply Qmult_inv_r. intros E. rewrite E in Hpos. discriminate.
Qed.

(** Witness: a three-pixel tensor [2, 5, 3]. *)
Lemma normalize_for_display_range_witness :
  length [0 # 3; 3 # 3; 1 # 3] = length [2; 5; 3] /\ Forall (fun z => 0 <= z /\ z <= 1) [0 # 3; 3 # 3; 1 # 3].
Proof.
  destruct (normalize_for_display_range [2; 5; 3] [0 # 3; 3 # 3; 1 # 3]) as (H1 & H2 & _).
  - vm_compute. reflexivity.
  - exists 2, 5. split; [left; reflexivity|split; [right; left; reflexivity|]].
    vm_compute. reflexivity.
  - split; [exact H1|exact H2].
Defined.
